(** * Pokedex API (API Lesson/main.py): a shallow embedding and its properties

    The FastAPI application keeps two module-level globals, the dictionary
    [pokemon_db] and the counter [next_id], and exposes four routes over
    them.  Python integers are unbounded, so ids and power levels are [Z];
    a Python [str] is a sequence of code points, some of which have no
    UTF-8 encoding; a Python [dict] keeps its entries in insertion order,
    so it is modelled as an association list with unique keys; the handlers
    live in a small state-and-exception monad over the two globals, and the
    routes send what the handlers return as JSON. *)

From stdpp Require Import base numbers list sorting strings pretty.

Local Open Scope Z_scope.

(** ** Python's insertion-ordered [dict], keyed by integers *)

Module PyDict.

Definition dict (V : Type) : Type := list (Z * V).

Section ops.
Context {V : Type}.

(** [{}] *)
Definition empty : dict V := [].

(** [d.get(k)]: the value stored under [k], if any *)
Fixpoint getitem (k : Z) (d : dict V) : option V :=
  match d with
  | [] => None
  | (k', v) :: d' => if decide (k' = k) then Some v else getitem k d'
  end.

(** [k in d] *)
Definition contains (k : Z) (d : dict V) : bool :=
  match getitem k d with Some _ => true | None => false end.

(** [d[k] = v]: an existing key keeps its position, a new one goes last *)
Fixpoint setitem (k : Z) (v : V) (d : dict V) : dict V :=
  match d with
  | [] => [(k, v)]
  | (k', v') :: d' =>
      if decide (k' = k) then (k, v) :: d' else (k', v') :: setitem k v d'
  end.

(** the entries of [d] without the entry of [k] *)
Fixpoint erase (k : Z) (d : dict V) : dict V :=
  match d with
  | [] => []
  | (k', v') :: d' =>
      if decide (k' = k) then d' else (k', v') :: erase k d'
  end.

(** [del d[k]]: [None] stands for Python's [KeyError] *)
Definition delitem (k : Z) (d : dict V) : option (dict V) :=
  if contains k d then Some (erase k d) else None.

(** [d.keys()], [d.values()] and [len(d)], in insertion order *)
Definition keys (d : dict V) : list Z := d.*1.
Definition values (d : dict V) : list V := d.*2.
Definition len (d : dict V) : nat := length d.

(** No Python dictionary holds a key twice. *)
Definition wf (d : dict V) : Prop := NoDup (keys d).
End ops.

End PyDict.

(** ** Python's [str] *)

(** A [str] is a sequence of code points.  A JSON request can put any code
    point into a string, the surrogates included (the escape [\ud800]). *)
Definition str : Type := list N.

Definition surrogate (c : N) : bool := ((0xD800 <=? c) && (c <=? 0xDFFF))%N.

(** [s.encode("utf-8")] succeeds: every code point is a Unicode scalar
    value.  A surrogate raises [UnicodeEncodeError]. *)
Definition encodable (s : str) : bool :=
  forallb (λ c, (c <=? 0x10FFFF)%N && negb (surrogate c)) s.

(** The [str] of an ASCII literal. *)
Fixpoint lit (s : string) : str :=
  match s with
  | EmptyString => []
  | String a s' => Ascii.N_of_ascii a :: lit s'
  end.

(** ** Pydantic models *)

Module PokemonCreate.
Record t : Type := mk { name : str; type : str; power_level : Z }.
End PokemonCreate.

(** The dictionary literal that [create_pokemon] builds and stores has
    exactly the fields of the response model. *)
Module PokemonResponse.
Record t : Type := mk {
  id : Z;
  name : str;
  type : str;
  power_level : Z;
  created_at : string
}.
End PokemonResponse.

(** The JSON object sent to [POST /pokemon], before validation: each field
    of the model may be missing. *)
Record Body : Type := {
  body_name : option str;
  body_type : option str;
  body_power_level : option Z
}.

(** The constraints that the [Field] declarations of [PokemonCreate] state:
    [Field(...)] makes a field required, [ge=] and [le=] bound an integer. *)
Inductive Constraint : Type :=
  | required
  | ge (bound : Z)
  | le (bound : Z).

Record ErrorDetail : Type := { loc : string; failed : Constraint }.

Definition check_required {A : Type} (field : string) (o : option A)
  : list ErrorDetail + A :=
  match o with
  | Some a => inr a
  | None => inl [ {| loc := field; failed := required |} ]
  end.

Definition check_bounds (field : string) (lo hi n : Z) : list ErrorDetail + Z :=
  if n <? lo then inl [ {| loc := field; failed := ge lo |} ]
  else if hi <? n then inl [ {| loc := field; failed := le hi |} ]
  else inr n.

Definition errors_of {A : Type} (r : list ErrorDetail + A) : list ErrorDetail :=
  match r with inl es => es | inr _ => [] end.

(** Validation of a request body against [PokemonCreate]: every field is
    checked and the errors of all fields are reported together. *)
Definition validate (b : Body) : list ErrorDetail + PokemonCreate.t :=
  let rn := check_required "name" (body_name b) in
  let rt := check_required "type" (body_type b) in
  let rp := match check_required "power_level" (body_power_level b) with
            | inr n => check_bounds "power_level" 1 100 n
            | inl es => inl es
            end in
  match rn, rt, rp with
  | inr n, inr t, inr p => inr (PokemonCreate.mk n t p)
  | _, _, _ => inl (errors_of rn ++ errors_of rt ++ errors_of rp)
  end.

(** ** The module globals and the handler monad *)

Record Registry : Type := {
  pokemon_db : PyDict.dict PokemonResponse.t;
  next_id : Z
}.

(** State of a freshly started process: [pokemon_db = {}], [next_id = 1]. *)
Definition startup : Registry := {| pokemon_db := PyDict.empty; next_id := 1 |}.

Inductive exn : Type :=
  | HTTPException (status_code : Z) (detail : string)
  | KeyError (key : Z).

Inductive outcome (A : Type) : Type :=
  | Return (a : A)
  | Raise (e : exn).
Arguments Return {A} a.
Arguments Raise {A} e.

(** A handler reads and writes the globals and returns or raises; what it
    wrote before raising stays written. *)
Definition handler (A : Type) : Type := Registry → outcome A * Registry.

Definition ret {A : Type} (a : A) : handler A := λ s, (Return a, s).

Definition bind {A B : Type} (m : handler A) (f : A → handler B) : handler B :=
  λ s, match m s with
       | (Return a, s') => f a s'
       | (Raise e, s') => (Raise e, s')
       end.

Definition raise {A : Type} (e : exn) : handler A := λ s, (Raise e, s).

Definition read_db : handler (PyDict.dict PokemonResponse.t) :=
  λ s, (Return (pokemon_db s), s).
Definition write_db (d : PyDict.dict PokemonResponse.t) : handler unit :=
  λ s, (Return tt, {| pokemon_db := d; next_id := next_id s |}).
Definition read_next_id : handler Z :=
  λ s, (Return (next_id s), s).
Definition write_next_id (n : Z) : handler unit :=
  λ s, (Return tt, {| pokemon_db := pokemon_db s; next_id := n |}).

Declare Scope handler_scope.
Delimit Scope handler_scope with handler.
Notation "x <- m ;; k" := (bind m (λ x, k))
  (at level 100, m at next level, right associativity) : handler_scope.
Notation "m ;; k" := (bind m (λ _, k))
  (at level 100, right associativity) : handler_scope.

(** [pokemon_db[k]]: raises [KeyError] on a missing key *)
Definition db_subscript (k : Z) : handler PokemonResponse.t :=
  (db <- read_db ;;
   match PyDict.getitem k db with
   | Some p => ret p
   | None => raise (KeyError k)
   end)%handler.

(** [pokemon_db[k] = p] *)
Definition db_assign (k : Z) (p : PokemonResponse.t) : handler unit :=
  (db <- read_db ;; write_db (PyDict.setitem k p db))%handler.

(** [del pokemon_db[k]]: raises [KeyError] on a missing key *)
Definition db_del (k : Z) : handler unit :=
  (db <- read_db ;;
   match PyDict.delitem k db with
   | Some db' => write_db db'
   | None => raise (KeyError k)
   end)%handler.

(** ** The route handlers *)

Definition not_found (pokemon_id : Z) : exn :=
  HTTPException 404 ("Pokemon with ID " +:+ pretty pokemon_id +:+ " not found").

Definition list_pokemon : handler (list PokemonResponse.t) :=
  (db <- read_db ;; ret (PyDict.values db))%handler.

Definition get_pokemon (pokemon_id : Z) : handler PokemonResponse.t :=
  (db <- read_db ;;
   if negb (PyDict.contains pokemon_id db) then raise (not_found pokemon_id)
   else db_subscript pokemon_id)%handler.

(** [now] is what [datetime.now().isoformat()] returns during the call. *)
Definition create_pokemon (pokemon : PokemonCreate.t) (now : string)
  : handler PokemonResponse.t :=
  (n <- read_next_id ;;
   let new_pokemon :=
     {| PokemonResponse.id := n;
        PokemonResponse.name := PokemonCreate.name pokemon;
        PokemonResponse.type := PokemonCreate.type pokemon;
        PokemonResponse.power_level := PokemonCreate.power_level pokemon;
        PokemonResponse.created_at := now |} in
   k <- read_next_id ;;
   db_assign k new_pokemon ;;
   c <- read_next_id ;;
   write_next_id (c + 1) ;;
   ret new_pokemon)%handler.

Definition delete_pokemon (pokemon_id : Z) : handler unit :=
  (db <- read_db ;;
   if negb (PyDict.contains pokemon_id db) then raise (not_found pokemon_id)
   else (db_del pokemon_id ;; ret tt))%handler.


(** ** The application: routes, status codes, validation and rendering *)

Inductive Content : Type :=
  | PokemonList (ps : list PokemonResponse.t)
  | PokemonObject (p : PokemonResponse.t)
  | Detail (detail : string)
  | ValidationErrors (errors : list ErrorDetail)
  | NoContent
  | InternalServerError.

Record Response : Type := { status : Z; content : Content }.

Inductive Request : Type :=
  | GET_pokemon
  | GET_pokemon_id (pokemon_id : Z)
  | POST_pokemon (body : Body) (now : string)
  | DELETE_pokemon_id (pokemon_id : Z).

(** The answer to a request whose handling raised anything but an
    [HTTPException]. *)
Definition server_error : Response :=
  {| status := 500; content := InternalServerError |}.

(** A record can be sent as JSON when its two strings can be encoded; its
    id and power level are integers, and [created_at] is the ASCII text
    that [isoformat()] returns. *)
Definition record_encodable (p : PokemonResponse.t) : bool :=
  encodable (PokemonResponse.name p) && encodable (PokemonResponse.type p).

(** Rendering of what a handler returns, for each [response_model]; [None]
    stands for the [UnicodeEncodeError] of the encoding. *)
Definition render_pokemon (p : PokemonResponse.t) : option Content :=
  if record_encodable p then Some (PokemonObject p) else None.

Definition render_list (ps : list PokemonResponse.t) : option Content :=
  if forallb record_encodable ps then Some (PokemonList ps) else None.

Definition render_nothing (_ : unit) : option Content := Some NoContent.

(** A validation error repeats the input that failed: the whole body for a
    missing field, the number for a bound.  So the 422 answer can be sent
    when the strings it repeats can be encoded. *)
Definition body_encodable (b : Body) : bool :=
  from_option encodable true (body_name b) &&
  from_option encodable true (body_type b).

Definition echo_encodable (b : Body) (e : ErrorDetail) : bool :=
  match failed e with
  | required => body_encodable b
  | ge _ | le _ => true
  end.

Definition render_errors (b : Body) (errors : list ErrorDetail) : option Content :=
  if forallb (echo_encodable b) errors then Some (ValidationErrors errors)
  else None.

(** What a route decorator does with its handler's outcome: a returned value
    is rendered and sent with the route's status code, an [HTTPException]
    with its own status code and detail, any other exception as a server
    error.  Rendering comes after the handler, so when it fails the answer
    is a server error and what the handler wrote stays written. *)
Definition respond {A : Type} (status_code : Z) (render : A → option Content)
    (h : handler A) : Registry → Response * Registry :=
  λ s, match h s with
       | (Return a, s') =>
           match render a with
           | Some c => ({| status := status_code; content := c |}, s')
           | None => (server_error, s')
           end
       | (Raise (HTTPException c d), s') => ({| status := c; content := Detail d |}, s')
       | (Raise (KeyError _), s') => (server_error, s')
       end.

Definition app (req : Request) : Registry → Response * Registry :=
  match req with
  | GET_pokemon => respond 200 render_list list_pokemon
  | GET_pokemon_id pokemon_id => respond 200 render_pokemon (get_pokemon pokemon_id)
  | POST_pokemon body now =>
      match validate body with
      | inr pokemon => respond 201 render_pokemon (create_pokemon pokemon now)
      | inl errors =>
          λ s, match render_errors body errors with
               | Some c => ({| status := 422; content := c |}, s)
               | None => (server_error, s)
               end
      end
  | DELETE_pokemon_id pokemon_id => respond 204 render_nothing (delete_pokemon pokemon_id)
  end.

(** Serving a sequence of requests, one after the other. *)
Fixpoint serve (reqs : list Request) (s : Registry) : list Response * Registry :=
  match reqs with
  | [] => ([], s)
  | req :: reqs' =>
      let '(resp, s') := app req s in
      let '(resps, s'') := serve reqs' s' in
      (resp :: resps, s'')
  end.

(** The registry states a running process can be in. *)
Inductive reachable : Registry → Prop :=
  | reachable_startup : reachable startup
  | reachable_app req s : reachable s → reachable (app req s).2.

(** ** Vocabulary of the properties *)

(** The record that a successful create stores and returns. *)
Definition pokemon_record (n : Z) (pokemon : PokemonCreate.t) (now : string)
  : PokemonResponse.t :=
  {| PokemonResponse.id := n;
     PokemonResponse.name := PokemonCreate.name pokemon;
     PokemonResponse.type := PokemonCreate.type pokemon;
     PokemonResponse.power_level := PokemonCreate.power_level pokemon;
     PokemonResponse.created_at := now |}.

(** A request body with all three fields. *)
Definition body_of (pokemon : PokemonCreate.t) : Body :=
  {| body_name := Some (PokemonCreate.name pokemon);
     body_type := Some (PokemonCreate.type pokemon);
     body_power_level := Some (PokemonCreate.power_level pokemon) |}.

(** The strings of a model can be encoded. *)
Definition model_encodable (pokemon : PokemonCreate.t) : bool :=
  encodable (PokemonCreate.name pokemon) && encodable (PokemonCreate.type pokemon).


(** The responses of the four routes. *)
Definition ok_list (ps : list PokemonResponse.t) : Response :=
  {| status := 200; content := PokemonList ps |}.
Definition ok_pokemon (p : PokemonResponse.t) : Response :=
  {| status := 200; content := PokemonObject p |}.
Definition created (p : PokemonResponse.t) : Response :=
  {| status := 201; content := PokemonObject p |}.
Definition no_content : Response :=
  {| status := 204; content := NoContent |}.
Definition unprocessable (errors : list ErrorDetail) : Response :=
  {| status := 422; content := ValidationErrors errors |}.
Definition not_found_detail (pokemon_id : Z) : string :=
  "Pokemon with ID " +:+ pretty pokemon_id +:+ " not found".
Definition not_found_response (pokemon_id : Z) : Response :=
  {| status := 404; content := Detail (not_found_detail pokemon_id) |}.

(** The record of a response to a create that was answered 201. *)
Definition created_record (resp : Response) : option PokemonResponse.t :=
  match content resp with
  | PokemonObject p => if decide (status resp = 201) then Some p else None
  | _ => None
  end.

(** The record that [create_pokemon] returns while the request [req] is
    served in the state [s]: there is one when the request is a create
    whose body passes validation, whatever becomes of the answer. *)
Definition creation (req : Request) (s : Registry) : option PokemonResponse.t :=
  match req with
  | POST_pokemon body now =>
      match validate body with
      | inr pokemon =>
          match create_pokemon pokemon now s with
          | (Return p, _) => Some p
          | (Raise _, _) => None
          end
      | inl _ => None
      end
  | GET_pokemon | GET_pokemon_id _ | DELETE_pokemon_id _ => None
  end.

(** The records created while a sequence of requests is served from [s],
    in the order of their creation. *)
Fixpoint creations (reqs : list Request) (s : Registry) : list PokemonResponse.t :=
  match reqs with
  | [] => []
  | req :: reqs' =>
      match creation req s with
      | Some p => p :: creations reqs' (app req s).2
      | None => creations reqs' (app req s).2
      end
  end.

(** The ids that those creates assigned. *)
Definition assigned_ids (reqs : list Request) (s : Registry) : list Z :=
  PokemonResponse.id <$> creations reqs s.

(** The number of records created by the requests served since startup. *)
Definition creates_served (reqs : list Request) : Z :=
  Z.of_nat (length (creations reqs startup)).

(** Create requests for a list of validated inputs, each with the time at
    which it is served. *)
Definition create_requests (inputs : list (PokemonCreate.t * string)) : list Request :=
  (λ i, POST_pokemon (body_of i.1) i.2) <$> inputs.

(** The records of those inputs, numbered from [n] on. *)
Fixpoint records_from (n : Z) (inputs : list (PokemonCreate.t * string))
  : list PokemonResponse.t :=
  match inputs with
  | [] => []
  | i :: inputs' => pokemon_record n i.1 i.2 :: records_from (n + 1) inputs'
  end.

(** Every key of the dictionary is below the counter. *)
Definition ids_below_counter (s : Registry) : Prop :=
  ∀ k, k ∈ PyDict.keys (pokemon_db s) → k < next_id s.

(** Every record is stored under its own id. *)
Definition stored_under_own_id (s : Registry) : Prop :=
  ∀ k p, PyDict.getitem k (pokemon_db s) = Some p → PokemonResponse.id p = k.

(** ** Further vocabulary *)

(** A request that only reads the registry. *)
Definition is_read (req : Request) : bool :=
  match req with
  | GET_pokemon | GET_pokemon_id _ => true
  | POST_pokemon _ _ | DELETE_pokemon_id _ => false
  end.

(** The number of responses that carry a given status code. *)
Definition count_status (code : Z) (resps : list Response) : nat :=
  length (filter (λ resp, status resp = code) resps).

(** What the constraints of [PokemonCreate] and the counter mean for a
    record stored under the key [k]. *)
Definition record_ok (s : Registry) (k : Z) (p : PokemonResponse.t) : Prop :=
  PokemonResponse.id p = k ∧ 1 ≤ k < next_id s ∧
  1 ≤ PokemonResponse.power_level p ≤ 100.

(** The responses to the requests of a sequence that are not reads. *)
Definition write_responses (reqs : list Request) (resps : list Response)
  : list Response :=
  (filter (λ rr, is_read rr.1 = false) (zip reqs resps)).*2.

(** The strings that a request carries can be encoded. *)
Definition request_encodable (req : Request) : bool :=
  match req with
  | POST_pokemon body _ => body_encodable body
  | GET_pokemon | GET_pokemon_id _ | DELETE_pokemon_id _ => true
  end.

(** The strings of every stored record can be encoded. *)
Definition state_encodable (s : Registry) : bool :=
  forallb record_encodable (PyDict.values (pokemon_db s)).

(** The status codes with which a route answers when nothing goes wrong
    in the rendering. *)
Definition route_status (req : Request) : list Z :=
  match req with
  | GET_pokemon => [200]
  | GET_pokemon_id _ => [200; 404]
  | POST_pokemon _ _ => [201; 422]
  | DELETE_pokemon_id _ => [204; 404]
  end.

(** * Facts about the dictionary operations *)

Module PyDictFacts.
Import PyDict.

Section facts.
Context {V : Type}.
Implicit Types (d : dict V) (k j : Z) (v : V).

Lemma contains_true k d : contains k d = true ↔ is_Some (getitem k d).
Proof.
  unfold contains. destruct (getitem k d) as [v|]; split; done.
Qed.

Lemma contains_false k d : contains k d = false ↔ getitem k d = None.
Proof. unfold contains. by destruct (getitem k d). Qed.

Lemma getitem_Some_elem_of k v d : getitem k d = Some v → (k, v) ∈ d.
Proof.
  induction d as [|[k' v'] d IH]; simpl; [done|].
  case_decide; intros Hg.
  - simplify_eq. left.
  - right. auto.
Qed.

Lemma getitem_None_keys k d : getitem k d = None ↔ k ∉ keys d.
Proof.
  unfold keys. induction d as [|[k' v'] d IH]; simpl.
  - split; [intros _; apply not_elem_of_nil | done].
  - rewrite not_elem_of_cons. destruct (decide (k' = k)) as [->|Hne].
    + split; [done | by intros [? _]].
    + rewrite IH. split; [by intros; split | by intros [_ ?]].
Qed.

Lemma contains_keys k d : contains k d = true ↔ k ∈ keys d.
Proof.
  destruct (contains k d) eqn:E.
  - split; [intros _|done].
    destruct (decide (k ∈ keys d)) as [|Hn]; [done|].
    apply getitem_None_keys, contains_false in Hn. congruence.
  - apply contains_false, getitem_None_keys in E. naive_solver.
Qed.

Lemma elem_of_keys k d : k ∈ keys d ↔ is_Some (getitem k d).
Proof. by rewrite <-contains_keys, contains_true. Qed.

Lemma elem_of_getitem k v d : wf d → (k, v) ∈ d → getitem k d = Some v.
Proof.
  unfold wf, keys. induction d as [|[k' v'] d IH]; simpl.
  - intros _ H. by apply elem_of_nil in H.
  - rewrite NoDup_cons. intros [Hk Hd] [H|H]%elem_of_cons.
    + simplify_eq. by rewrite decide_True.
    + rewrite decide_False; [auto|].
      intros ->. apply Hk. apply (list_elem_of_fmap_2 fst) in H. done.
Qed.

(** [d.values()] holds exactly the values that some key maps to. *)
Lemma elem_of_values v d : wf d → v ∈ values d ↔ ∃ k, getitem k d = Some v.
Proof.
  intros Hwf. unfold values. rewrite list_elem_of_fmap. split.
  - intros [[k v'] [-> H]]. exists k. by apply elem_of_getitem.
  - intros [k H]. exists (k, v). split; [done|]. by apply getitem_Some_elem_of.
Qed.

Lemma length_values d : length (values d) = len d.
Proof. unfold values, len. by rewrite length_fmap. Qed.

Lemma length_keys d : length (keys d) = len d.
Proof. unfold keys, len. by rewrite length_fmap. Qed.

(** *** Assignment *)

Lemma getitem_setitem_eq k v d : getitem k (setitem k v d) = Some v.
Proof.
  induction d as [|[k' v'] d IH]; simpl.
  - by rewrite decide_True.
  - case_decide; simpl; [by rewrite decide_True | by rewrite decide_False].
Qed.

Lemma getitem_setitem_ne k j v d : k ≠ j → getitem j (setitem k v d) = getitem j d.
Proof.
  intros Hne. induction d as [|[k' v'] d IH]; simpl.
  - by rewrite decide_False.
  - case_decide; simpl.
    + subst k'. by rewrite !decide_False.
    + case_decide; [done | apply IH].
Qed.

Lemma elem_of_keys_setitem k j v d :
  j ∈ keys (setitem k v d) ↔ j = k ∨ j ∈ keys d.
Proof.
  rewrite !elem_of_keys. destruct (decide (k = j)) as [->|Hne].
  - rewrite getitem_setitem_eq. split; [by left | by eexists].
  - rewrite getitem_setitem_ne by done. split; [by right|].
    by intros [->|?].
Qed.

(** Assigning to a key that is not in the dictionary appends an entry. *)
Lemma setitem_fresh k v d : getitem k d = None → setitem k v d = d ++ [(k, v)].
Proof.
  induction d as [|[k' v'] d IH]; simpl; [done|].
  case_decide; [done|]. intros Hg. by rewrite IH.
Qed.

(** Assigning to a key of the dictionary leaves the keys as they are. *)
Lemma keys_setitem_present k v d : is_Some (getitem k d) → keys (setitem k v d) = keys d.
Proof.
  unfold keys. induction d as [|[k' v'] d IH]; simpl.
  - by intros [? ?].
  - case_decide; simpl; intros Hg; [by subst | f_equal; by apply IH].
Qed.

Lemma wf_setitem k v d : wf d → wf (setitem k v d).
Proof.
  intros Hwf. destruct (getitem k d) eqn:E.
  - unfold wf. by rewrite keys_setitem_present.
  - rewrite setitem_fresh by done. unfold wf, keys in *.
    rewrite fmap_app. simpl. apply NoDup_app. split; [done|]. split.
    + intros x Hx ->%list_elem_of_singleton. by apply getitem_None_keys in E.
    + apply NoDup_singleton.
Qed.

(** *** Deletion *)

Lemma keys_erase_subseteq k d : keys (erase k d) ⊆ keys d.
Proof.
  unfold keys. induction d as [|[k' v'] d IH]; simpl; [done|].
  case_decide; simpl.
  - by apply list_subseteq_cons.
  - by apply list_subseteq_skip.
Qed.

Lemma wf_erase k d : wf d → wf (erase k d).
Proof.
  unfold wf, keys. induction d as [|[k' v'] d IH]; simpl; [done|].
  rewrite NoDup_cons. intros [Hk Hd]. case_decide; simpl; [done|].
  apply NoDup_cons. split; [|auto].
  intros Hin. apply Hk. by apply (keys_erase_subseteq k d).
Qed.

Lemma getitem_erase_eq k d : wf d → getitem k (erase k d) = None.
Proof.
  unfold wf, keys. induction d as [|[k' v'] d IH]; simpl; [done|].
  rewrite NoDup_cons. intros [Hk Hd]. case_decide; simpl.
  - subst k'. by apply getitem_None_keys.
  - rewrite decide_False by done. auto.
Qed.

Lemma getitem_erase_ne k j d : k ≠ j → getitem j (erase k d) = getitem j d.
Proof.
  intros Hne. induction d as [|[k' v'] d IH]; simpl; [done|].
  case_decide; simpl.
  - subst k'. by rewrite decide_False.
  - case_decide; [done | apply IH].
Qed.

Lemma len_erase k d : is_Some (getitem k d) → S (len (erase k d)) = len d.
Proof.
  unfold len. induction d as [|[k' v'] d IH]; simpl.
  - by intros [? ?].
  - case_decide; simpl; [done|]. intros Hg. by rewrite IH.
Qed.

Lemma delitem_Some k d d' :
  delitem k d = Some d' ↔ is_Some (getitem k d) ∧ d' = erase k d.
Proof.
  unfold delitem. destruct (contains k d) eqn:E.
  - apply contains_true in E. split.
    + intros [= <-]. by split.
    + by intros [_ ->].
  - apply contains_false in E. rewrite E. split; [done|]. by intros [[? ?] _].
Qed.

(** *** Values *)

Lemma getitem_Some_values k v d : getitem k d = Some v → v ∈ values d.
Proof.
  intros Hk%getitem_Some_elem_of. unfold values.
  by apply (list_elem_of_fmap_2 snd) in Hk.
Qed.

Lemma Forall_values_setitem (P : V → Prop) k v d :
  Forall P (values d) → P v → Forall P (values (setitem k v d)).
Proof.
  unfold values. intros Hd Hv. induction d as [|[k' v'] d IH]; simpl.
  - by repeat constructor.
  - rewrite fmap_cons in Hd. apply Forall_cons in Hd as [Hv' Hd].
    case_decide; rewrite fmap_cons; apply Forall_cons; auto.
Qed.

Lemma Forall_values_erase (P : V → Prop) k d :
  Forall P (values d) → Forall P (values (erase k d)).
Proof.
  unfold values. intros Hd. induction d as [|[k' v'] d IH]; simpl; [done|].
  rewrite fmap_cons in Hd. apply Forall_cons in Hd as [Hv' Hd].
  case_decide; [done|]. rewrite fmap_cons. apply Forall_cons. auto.
Qed.

End facts.
End PyDictFacts.

(** * The handlers and the routes, one equation each *)

Section handler_equations.
Import PyDict.
Implicit Types (s : Registry) (k : Z).

Lemma list_pokemon_eq s :
  list_pokemon s = (Return (values (pokemon_db s)), s).
Proof. reflexivity. Qed.

Lemma get_pokemon_eq k s :
  get_pokemon k s =
  match getitem k (pokemon_db s) with
  | Some p => (Return p, s)
  | None => (Raise (not_found k), s)
  end.
Proof.
  unfold get_pokemon, db_subscript, bind, read_db, contains, ret, raise.
  destruct (getitem k (pokemon_db s)) eqn:E; simpl; rewrite ?E; reflexivity.
Qed.

Lemma create_pokemon_eq pokemon now s :
  create_pokemon pokemon now s =
  (Return (pokemon_record (next_id s) pokemon now),
   {| pokemon_db := setitem (next_id s) (pokemon_record (next_id s) pokemon now)
                      (pokemon_db s);
      next_id := next_id s + 1 |}).
Proof. reflexivity. Qed.

Lemma delete_pokemon_eq k s :
  delete_pokemon k s =
  match getitem k (pokemon_db s) with
  | Some _ => (Return tt, {| pokemon_db := erase k (pokemon_db s);
                             next_id := next_id s |})
  | None => (Raise (not_found k), s)
  end.
Proof.
  unfold delete_pokemon, db_del, delitem, bind, read_db, write_db, contains,
    ret, raise.
  destruct (getitem k (pokemon_db s)) eqn:E; simpl; rewrite ?E; reflexivity.
Qed.

Lemma app_get_list s :
  app GET_pokemon s =
  (if state_encodable s then ok_list (values (pokemon_db s)) else server_error, s).
Proof.
  unfold app, respond, render_list, state_encodable. rewrite list_pokemon_eq.
  by destruct (forallb record_encodable (values (pokemon_db s))).
Qed.

Lemma app_get k s :
  app (GET_pokemon_id k) s =
  match getitem k (pokemon_db s) with
  | Some p => (if record_encodable p then ok_pokemon p else server_error, s)
  | None => (not_found_response k, s)
  end.
Proof.
  unfold app, respond, render_pokemon. rewrite get_pokemon_eq.
  destruct (getitem k (pokemon_db s)) as [p|]; [|done].
  by destruct (record_encodable p).
Qed.

Lemma app_post body now s :
  app (POST_pokemon body now) s =
  match validate body with
  | inr pokemon =>
      (if model_encodable pokemon
       then created (pokemon_record (next_id s) pokemon now) else server_error,
       {| pokemon_db := setitem (next_id s)
                          (pokemon_record (next_id s) pokemon now) (pokemon_db s);
          next_id := next_id s + 1 |})
  | inl errors =>
      (if forallb (echo_encodable body) errors
       then unprocessable errors else server_error, s)
  end.
Proof.
  unfold app, render_errors. destruct (validate body) as [errors|pokemon].
  - by destruct (forallb (echo_encodable body) errors).
  - unfold respond, render_pokemon. rewrite create_pokemon_eq.
    change (record_encodable (pokemon_record (next_id s) pokemon now))
      with (model_encodable pokemon).
    by destruct (model_encodable pokemon).
Qed.

Lemma app_delete k s :
  app (DELETE_pokemon_id k) s =
  match getitem k (pokemon_db s) with
  | Some _ => (no_content, {| pokemon_db := erase k (pokemon_db s);
                              next_id := next_id s |})
  | None => (not_found_response k, s)
  end.
Proof.
  unfold app, respond. rewrite delete_pokemon_eq.
  by destruct (getitem k (pokemon_db s)).
Qed.

Lemma creation_eq req s :
  creation req s =
  match req with
  | POST_pokemon body now =>
      match validate body with
      | inr pokemon => Some (pokemon_record (next_id s) pokemon now)
      | inl _ => None
      end
  | _ => None
  end.
Proof. by destruct req. Qed.

End handler_equations.

(** * Invariants of the registry *)

Section invariants.
Import PyDict PyDictFacts.
Implicit Types (s : Registry) (k : Z) (req : Request).

(** Only a create and a delete change the globals, and in one way each. *)
Lemma app_state req s :
  (app req s).2 = s ∨
  (∃ body now pokemon, req = POST_pokemon body now ∧ validate body = inr pokemon ∧
     (app req s).2 =
       {| pokemon_db := setitem (next_id s)
                          (pokemon_record (next_id s) pokemon now) (pokemon_db s);
          next_id := next_id s + 1 |}) ∨
  (∃ k, req = DELETE_pokemon_id k ∧ is_Some (getitem k (pokemon_db s)) ∧
     (app req s).2 = {| pokemon_db := erase k (pokemon_db s); next_id := next_id s |}).
Proof.
  destruct req as [|k|body now|k].
  - left. by rewrite app_get_list.
  - left. rewrite app_get. by destruct (getitem k (pokemon_db s)).
  - rewrite app_post. destruct (validate body) as [errors|pokemon] eqn:E.
    + by left.
    + right; left. by exists body, now, pokemon.
  - rewrite app_delete. destruct (getitem k (pokemon_db s)) as [p|] eqn:E.
    + right; right. exists k. rewrite E. eauto.
    + by left.
Qed.

(** The three ways a request can go: it changes nothing and is answered
    200, 404, 422 or 500; it is a create whose body passes validation; it
    is a delete of a present id. *)
Lemma app_cases req s :
  (∃ resp, app req s = (resp, s) ∧
           (status resp = 200 ∨ status resp = 404 ∨ status resp = 422 ∨
            status resp = 500) ∧
           (is_read req = false → status resp ≠ 200) ∧
           creation req s = None) ∨
  (∃ body now pokemon,
     req = POST_pokemon body now ∧ validate body = inr pokemon ∧
     app req s =
       (if model_encodable pokemon
        then created (pokemon_record (next_id s) pokemon now) else server_error,
        {| pokemon_db := setitem (next_id s)
                           (pokemon_record (next_id s) pokemon now) (pokemon_db s);
           next_id := next_id s + 1 |})) ∨
  (∃ k q, req = DELETE_pokemon_id k ∧ getitem k (pokemon_db s) = Some q ∧
     app req s =
       (no_content, {| pokemon_db := erase k (pokemon_db s); next_id := next_id s |})).
Proof.
  destruct req as [|k|body now|k].
  - left. eexists. rewrite app_get_list. split; [done|].
    destruct (state_encodable s); split_and!; auto.
  - left. rewrite app_get. destruct (getitem k (pokemon_db s)) as [p|].
    + eexists. split; [done|]. destruct (record_encodable p); split_and!; auto.
    + eexists. split; [done|]. split_and!; auto.
  - rewrite app_post, creation_eq.
    destruct (validate body) as [errors|pokemon] eqn:E.
    + left. eexists. split; [done|].
      destruct (forallb (echo_encodable body) errors); split_and!; auto.
    + right; left. by exists body, now, pokemon.
  - rewrite app_delete. destruct (getitem k (pokemon_db s)) as [q|] eqn:E.
    + right; right. by exists k, q.
    + left. eexists. split; [done|]. split_and!; auto.
Qed.

Lemma app_preserves_wf req s :
  wf (pokemon_db s) → wf (pokemon_db (app req s).2).
Proof.
  intros Hwf.
  destruct (app_state req s) as [->|[(body & now & pokemon & _ & _ & ->)|(k & _ & _ & ->)]];
    simpl; auto using wf_setitem, wf_erase.
Qed.

Lemma app_preserves_ids_below_counter req s :
  ids_below_counter s → ids_below_counter (app req s).2.
Proof.
  intros Hinv.
  destruct (app_state req s) as [->|[(body & now & pokemon & _ & _ & ->)|(k & _ & _ & ->)]];
    [done|..]; intros j; simpl.
  - intros [->|Hj]%elem_of_keys_setitem; [lia|]. apply Hinv in Hj. lia.
  - intros Hj%keys_erase_subseteq. by apply Hinv.
Qed.

Lemma app_preserves_stored_under_own_id req s :
  wf (pokemon_db s) → stored_under_own_id s → stored_under_own_id (app req s).2.
Proof.
  intros Hwf Hinv.
  destruct (app_state req s) as [->|[(body & now & pokemon & _ & _ & ->)|(k & _ & _ & ->)]];
    [done|..]; intros j p; simpl.
  - destruct (decide (next_id s = j)) as [<-|Hne].
    + rewrite getitem_setitem_eq. by intros [= <-].
    + rewrite getitem_setitem_ne by done. apply Hinv.
  - destruct (decide (k = j)) as [<-|Hne].
    + by rewrite getitem_erase_eq.
    + rewrite getitem_erase_ne by done. apply Hinv.
Qed.

(** What holds of every state a process can reach. *)
Lemma reachable_invariants s :
  reachable s →
  wf (pokemon_db s) ∧ ids_below_counter s ∧ stored_under_own_id s ∧ 1 ≤ next_id s.
Proof.
  induction 1 as [|req s _ (Hwf & Hlt & Hid & Hpos)].
  - split_and!.
    + apply NoDup_nil_2.
    + intros k Hk. by apply elem_of_nil in Hk.
    + by intros k p.
    + simpl. lia.
  - split_and!.
    + by apply app_preserves_wf.
    + by apply app_preserves_ids_below_counter.
    + by apply app_preserves_stored_under_own_id.
    + destruct (app_state req s) as [->|[(? & ? & ? & _ & _ & ->)|(? & _ & _ & ->)]];
        simpl; lia.
Qed.

Lemma serve_app req reqs s :
  serve (req :: reqs) s =
  ((app req s).1 :: (serve reqs (app req s).2).1, (serve reqs (app req s).2).2).
Proof.
  simpl. destruct (app req s) as [resp s']. simpl.
  by destruct (serve reqs s') as [resps s''].
Qed.

Lemma serve_reachable reqs s : reachable s → reachable (serve reqs s).2.
Proof.
  revert s. induction reqs as [|req reqs IH]; intros s Hs; [done|].
  rewrite serve_app. simpl. apply IH. by constructor.
Qed.

(** A create that reaches its handler is given the counter as its id, and
    the counter moves by one.  No other request moves the counter. *)
Lemma creation_next_id req s :
  match creation req s with
  | Some p => PokemonResponse.id p = next_id s ∧
              next_id (app req s).2 = next_id s + 1
  | None => next_id (app req s).2 = next_id s
  end.
Proof.
  destruct (app_cases req s)
    as [(resp & -> & _ & _ & ->)|[(body & now & pokemon & -> & Hv & ->)|(k & q & -> & _ & ->)]];
    [done| |done].
  by rewrite creation_eq, Hv.
Qed.

(** A create that is answered 201 has reached its handler, and the record
    of the answer is the record that the handler returned. *)
Lemma created_record_creation req s p :
  created_record (app req s).1 = Some p → creation req s = Some p.
Proof.
  destruct (app_cases req s)
    as [(resp & -> & Hst & _)|[(body & now & pokemon & -> & Hv & ->)|(k & q & -> & _ & ->)]];
    cbn [fst].
  - unfold created_record. destruct (content resp); try done.
    rewrite decide_False; [done|]. destruct Hst as [-> | [-> | [-> | ->]]]; done.
  - rewrite creation_eq, Hv. by destruct (model_encodable pokemon).
  - done.
Qed.

Lemma assigned_ids_cons req reqs s :
  assigned_ids (req :: reqs) s =
  match creation req s with
  | Some p => PokemonResponse.id p :: assigned_ids reqs (app req s).2
  | None => assigned_ids reqs (app req s).2
  end.
Proof. unfold assigned_ids. simpl. by destruct (creation req s). Qed.

(** From any state, the creates of a request sequence are given the
    consecutive ids that start at the counter. *)
Lemma serve_assigned_ids reqs s :
  assigned_ids reqs s
    = seqZ (next_id s) (Z.of_nat (length (assigned_ids reqs s))) ∧
  next_id (serve reqs s).2
    = next_id s + Z.of_nat (length (assigned_ids reqs s)).
Proof.
  revert s. induction reqs as [|req reqs IH]; intros s.
  - simpl. split; [done | lia].
  - rewrite serve_app. cbn [fst snd]. rewrite assigned_ids_cons.
    pose proof (creation_next_id req s) as Hreq.
    destruct (IH (app req s).2) as [IH1 IH2].
    destruct (creation req s) as [p|].
    + destruct Hreq as [Hid Hnext]. rewrite Hnext in IH1, IH2.
      rewrite length_cons, Nat2Z.inj_succ. split; [|lia].
      rewrite seqZ_cons by lia. rewrite Hid. f_equal.
      rewrite IH1 at 1. f_equal; lia.
    + rewrite Hreq in IH1, IH2. done.
Qed.

(** The records answered with 201 are among the records created, in the
    same order. *)
Lemma created_records_sublist reqs s :
  omap created_record (serve reqs s).1 `sublist_of` creations reqs s.
Proof.
  revert s. induction reqs as [|req reqs IH]; intros s; [done|].
  rewrite serve_app. cbn [fst creations omap list_omap].
  pose proof (created_record_creation req s) as Hreq.
  destruct (created_record (app req s).1) as [p|].
  - rewrite (Hreq p eq_refl). by apply sublist_skip.
  - destruct (creation req s); [apply sublist_cons|]; apply IH.
Qed.

(** Encodable strings in, encodable strings stored. *)
Lemma app_preserves_state_encodable req s :
  request_encodable req = true → state_encodable s = true →
  state_encodable (app req s).2 = true.
Proof.
  unfold state_encodable. rewrite <-!Is_true_true, !forallb_True. intros Hreq Hs.
  destruct (app_state req s) as [->|[(body & now & pokemon & -> & Hv & ->)|(k & _ & _ & ->)]];
    [done|..]; cbn [pokemon_db].
  - apply Forall_values_setitem; [done|].
    destruct body as [[n|] [t|] [p|]]; unfold validate, check_bounds in Hv;
      simpl in Hv; try discriminate.
    destruct (p <? 1); [discriminate|]. destruct (100 <? p); [discriminate|].
    injection Hv as <-. done.
  - by apply Forall_values_erase.
Qed.

End invariants.

(** * Request validation *)

Section validation.
Implicit Types (body : Body) (pokemon : PokemonCreate.t) (s : Registry).

Lemma validate_body_of pokemon :
  validate (body_of pokemon) =
  match check_bounds "power_level" 1 100 (PokemonCreate.power_level pokemon) with
  | inr _ => inr pokemon
  | inl errors => inl errors
  end.
Proof.
  destruct pokemon as [n t p]. unfold validate, body_of, check_bounds. simpl.
  destruct (p <? 1); [done|]. by destruct (100 <? p).
Qed.

Lemma validate_in_range pokemon :
  1 ≤ PokemonCreate.power_level pokemon ≤ 100 →
  validate (body_of pokemon) = inr pokemon.
Proof.
  intros [Hlo Hhi]. rewrite validate_body_of. unfold check_bounds.
  destruct (Z.ltb_spec (PokemonCreate.power_level pokemon) 1); [lia|].
  destruct (Z.ltb_spec 100 (PokemonCreate.power_level pokemon)); [lia|done].
Qed.

Lemma validate_accepts body pokemon :
  validate body = inr pokemon ↔
  body = body_of pokemon ∧ 1 ≤ PokemonCreate.power_level pokemon ≤ 100.
Proof.
  split; [|intros [-> ?]; by apply validate_in_range].
  destruct body as [[n|] [t|] [p|]]; unfold validate, check_bounds; simpl;
    try discriminate.
  destruct (Z.ltb_spec p 1); [discriminate|].
  destruct (Z.ltb_spec 100 p); [discriminate|].
  intros [= <-]. split; [done | simpl; lia].
Qed.


(** The answer to a rejected body can be sent when the strings of the body
    can be encoded, and whenever no field is missing. *)
Lemma echo_encodable_body body errors :
  body_encodable body = true → forallb (echo_encodable body) errors = true.
Proof.
  intros Hb. apply Is_true_true, forallb_True, Forall_forall.
  intros [l c] _. unfold echo_encodable. simpl. destruct c; by rewrite ?Hb.
Qed.

Lemma echo_encodable_body_of pokemon errors :
  validate (body_of pokemon) = inl errors →
  forallb (echo_encodable (body_of pokemon)) errors = true.
Proof.
  rewrite validate_body_of. unfold check_bounds.
  destruct (_ <? 1); [by intros [= <-]|]. destruct (100 <? _); [by intros [= <-]|done].
Qed.

End validation.
(** * The detail of a 404 response *)

Section detail.
Implicit Types (s t : string).




End detail.


(** * The routes *)

Section routes.
Import PyDict PyDictFacts.
Implicit Types (body : Body) (pokemon : PokemonCreate.t) (s : Registry) (k : Z).




(** C2.  A create with a name, a type and the power level 0 or 101 fails
    with a validation error on [power_level] and changes nothing; in
    general it fails with 422 exactly when the power level lies outside the
    inclusive interval from 1 to 100, and its handler runs exactly when the
    power level lies inside.  With a name and a type that can be encoded, a
    create with power level 1 or 100 is answered 201 with its record, and a
    create is answered 201 exactly when the power level lies in the
    interval. *)
Theorem power_level_boundaries (n t : str) (now : string) s :
  app (POST_pokemon (body_of (PokemonCreate.mk n t 0)) now) s
    = (unprocessable [ {| loc := "power_level"; failed := ge 1 |} ], s) ∧
  app (POST_pokemon (body_of (PokemonCreate.mk n t 101)) now) s
    = (unprocessable [ {| loc := "power_level"; failed := le 100 |} ], s) ∧
  (∀ p : Z,
     status (app (POST_pokemon (body_of (PokemonCreate.mk n t p)) now) s).1 = 422
     ↔ ¬ (1 ≤ p ≤ 100)) ∧
  (∀ p : Z,
     creation (POST_pokemon (body_of (PokemonCreate.mk n t p)) now) s
       = Some (PokemonResponse.mk (next_id s) n t p now)
     ↔ 1 ≤ p ≤ 100) ∧
  (encodable n = true → encodable t = true →
   (app (POST_pokemon (body_of (PokemonCreate.mk n t 1)) now) s).1
     = created (PokemonResponse.mk (next_id s) n t 1 now) ∧
   (app (POST_pokemon (body_of (PokemonCreate.mk n t 100)) now) s).1
     = created (PokemonResponse.mk (next_id s) n t 100 now) ∧
   ∀ p : Z,
     status (app (POST_pokemon (body_of (PokemonCreate.mk n t p)) now) s).1 = 201
     ↔ 1 ≤ p ≤ 100).
Proof.
  split_and!; try reflexivity.
  - intros p. rewrite app_post, validate_body_of. unfold check_bounds.
    cbn [PokemonCreate.power_level forallb echo_encodable failed andb].
    destruct (Z.ltb_spec p 1); [|destruct (Z.ltb_spec 100 p)];
      cbn [fst status unprocessable forallb echo_encodable failed andb];
      [split; [lia | done]..|].
    destruct (model_encodable _); simpl; (split; [done | lia]).
  - intros p. rewrite creation_eq, validate_body_of. unfold check_bounds.
    cbn [PokemonCreate.power_level].
    destruct (Z.ltb_spec p 1); [|destruct (Z.ltb_spec 100 p)];
      (split; [try done; lia | try done; lia]).
  - intros Hn Ht.
    assert (∀ p, model_encodable (PokemonCreate.mk n t p) = true) as Henc.
    { intros p. unfold model_encodable. simpl. by rewrite Hn, Ht. }
    split_and!.
    + unfold app, respond, render_pokemon, record_encodable. simpl.
      by rewrite Hn, Ht.
    + unfold app, respond, render_pokemon, record_encodable. simpl.
      by rewrite Hn, Ht.
    + intros p. rewrite app_post, validate_body_of. unfold check_bounds.
      cbn [PokemonCreate.power_level].
      destruct (Z.ltb_spec p 1); [|destruct (Z.ltb_spec 100 p)]; rewrite ?Henc;
        cbn [fst status unprocessable created forallb echo_encodable failed andb];
        (split; [try done; lia | try done; lia]).
Qed.

Lemma power_level_boundaries_witness :
  (app (POST_pokemon (body_of (PokemonCreate.mk (lit "Pikachu") (lit "Electric") 100))
          "t0") startup).1
  = created (PokemonResponse.mk 1 (lit "Pikachu") (lit "Electric") 100 "t0").
Proof.
  destruct (power_level_boundaries (lit "Pikachu") (lit "Electric") "t0" startup)
    as (_ & _ & _ & _ & Hok).
  destruct Hok as (_ & H100 & _); [reflexivity | reflexivity | exact H100].
Defined.



(** C7.  When a create answers 201 with a record, a get of that record's
    id served right after it answers 200 with the same record. *)
Theorem get_after_create body now s p s'
    (Hcreate : app (POST_pokemon body now) s = (created p, s')) :
  app (GET_pokemon_id (PokemonResponse.id p)) s' = (ok_pokemon p, s').
Proof.
  rewrite app_post in Hcreate.
  destruct (validate body) as [errors|pokemon].
  { by destruct (forallb (echo_encodable body) errors). }
  destruct (model_encodable pokemon) eqn:Henc; [|done].
  injection Hcreate as <- <-. rewrite app_get. simpl.
  rewrite getitem_setitem_eq.
  change (record_encodable (pokemon_record (next_id s) pokemon now))
    with (model_encodable pokemon).
  by rewrite Henc.
Qed.

Lemma get_after_create_witness :
  app (GET_pokemon_id 1)
    {| pokemon_db :=
         [(1, PokemonResponse.mk 1 (lit "Pikachu") (lit "Electric") 85 "t0")];
       next_id := 2 |}
  = (ok_pokemon (PokemonResponse.mk 1 (lit "Pikachu") (lit "Electric") 85 "t0"),
     {| pokemon_db :=
          [(1, PokemonResponse.mk 1 (lit "Pikachu") (lit "Electric") 85 "t0")];
        next_id := 2 |}).
Proof.
  apply (get_after_create
           (body_of (PokemonCreate.mk (lit "Pikachu") (lit "Electric") 85)) "t0"
           startup
           (PokemonResponse.mk 1 (lit "Pikachu") (lit "Electric") 85 "t0")).
  reflexivity.
Defined.

(** C5.  [DELETE /pokemon/{id}] answers 404 exactly when the id is absent,
    and then leaves the registry as it was; when the id is present it
    answers 204 with no content, and afterwards the id is absent and the
    registry holds one record fewer. *)
Theorem delete_pokemon_removes_or_404 k s (Hwf : wf (pokemon_db s)) :
  (contains k (pokemon_db s) = false ↔
     status (app (DELETE_pokemon_id k) s).1 = 404) ∧
  (contains k (pokemon_db s) = false ↔
     app (DELETE_pokemon_id k) s = (not_found_response k, s)) ∧
  (contains k (pokemon_db s) = true ↔
     ∃ s', app (DELETE_pokemon_id k) s = (no_content, s') ∧
           contains k (pokemon_db s') = false ∧
           S (len (pokemon_db s')) = len (pokemon_db s)).
Proof.
  rewrite contains_true, contains_false, app_delete.
  destruct (getitem k (pokemon_db s)) as [q|] eqn:E; split_and!; try done.
  - split; [intros _ | by eexists]. eexists. split; [done|]. simpl. split.
    + by apply contains_false, getitem_erase_eq.
    + apply len_erase. by rewrite E.
  - split; [by intros [? ?] | by intros (s' & ? & _)].
Qed.

Lemma delete_pokemon_removes_or_404_witness :
  ∃ s', app (DELETE_pokemon_id 1)
          {| pokemon_db :=
               [(1, PokemonResponse.mk 1 (lit "Pikachu") (lit "Electric") 85 "t0")];
             next_id := 2 |} = (no_content, s') ∧
        contains 1 (pokemon_db s') = false ∧
        S (len (pokemon_db s')) = 1%nat.
Proof.
  apply (delete_pokemon_removes_or_404 1
           {| pokemon_db :=
                [(1, PokemonResponse.mk 1 (lit "Pikachu") (lit "Electric") 85 "t0")];
              next_id := 2 |}).
  - apply NoDup_singleton.
  - reflexivity.
Defined.




(** C10.  A successful delete of a present id removes the record stored
    under that id and nothing else: every other id maps to what it mapped
    to before, and the counter keeps its value.  A get and a list keep the
    counter, too. *)
Theorem delete_frame k s
    (Hwf : wf (pokemon_db s)) (Hk : contains k (pokemon_db s) = true) :
  ∃ s', app (DELETE_pokemon_id k) s = (no_content, s') ∧
        getitem k (pokemon_db s') = None ∧
        (∀ j, j ≠ k → getitem j (pokemon_db s') = getitem j (pokemon_db s)) ∧
        next_id s' = next_id s ∧
        (∀ j, next_id (app (GET_pokemon_id j) s).2 = next_id s) ∧
        next_id (app GET_pokemon s).2 = next_id s.
Proof.
  apply contains_true in Hk as [q Hq]. rewrite app_delete, Hq.
  eexists. split; [done|]. cbn [pokemon_db next_id]. split_and!; try done.
  - by apply getitem_erase_eq.
  - intros j Hne. by apply getitem_erase_ne.
  - intros j. rewrite app_get. by destruct (getitem j (pokemon_db s)).
  - by rewrite app_get_list.
Qed.

Lemma delete_frame_witness :
  ∃ s', app (DELETE_pokemon_id 1)
          {| pokemon_db :=
               [(1, PokemonResponse.mk 1 (lit "Pikachu") (lit "Electric") 85 "t0");
                (2, PokemonResponse.mk 2 (lit "Onix") (lit "Rock") 40 "t1")];
             next_id := 3 |} = (no_content, s') ∧
        getitem 1 (pokemon_db s') = None ∧
        getitem 2 (pokemon_db s')
          = Some (PokemonResponse.mk 2 (lit "Onix") (lit "Rock") 40 "t1") ∧
        next_id s' = 3.
Proof.
  destruct (delete_frame 1
              {| pokemon_db :=
                   [(1, PokemonResponse.mk 1 (lit "Pikachu") (lit "Electric") 85 "t0");
                    (2, PokemonResponse.mk 2 (lit "Onix") (lit "Rock") 40 "t1")];
                 next_id := 3 |}) as (s' & Happ & Hgone & Hrest & Hnext & _).
  - apply NoDup_cons. split; [|apply NoDup_singleton].
    intros Hin%list_elem_of_singleton. discriminate.
  - reflexivity.
  - exists s'. split_and!; [exact Happ | exact Hgone | | exact Hnext].
    rewrite Hrest; [reflexivity | discriminate].
Defined.

End routes.

(** * Identifiers over sequences of requests *)

Section identifiers.
Import PyDict PyDictFacts.
Implicit Types (body : Body) (pokemon : PokemonCreate.t) (s : Registry) (k : Z).
Implicit Types (reqs : list Request) (inputs : list (PokemonCreate.t * string)).

Lemma serve_startup_ids reqs :
  assigned_ids reqs startup = seqZ 1 (creates_served reqs) ∧
  next_id (serve reqs startup).2 = 1 + creates_served reqs.
Proof.
  unfold creates_served. rewrite <-(length_fmap PokemonResponse.id).
  apply (serve_assigned_ids reqs startup).
Qed.

(** C4.  After any sequence of requests served since startup, the ids
    given to the records that [create_pokemon] created are 1, 2, 3 and so
    on in the order of the creates, the counter is one more than their
    number, and the records of the 201 answers are among them.  A further
    create with a valid body is given the counter, which is greater than
    every id given before; its handler stores the record under that id,
    returns the record with the id in it and moves the counter by one, and
    the record is what the route answers with 201 when its name and type
    can be encoded.  An id whose record a delete removed is given to no
    later create. *)
Theorem create_assigns_next_id reqs body now pokemon
    (Hvalid : validate body = inr pokemon) :
  assigned_ids reqs startup = seqZ 1 (creates_served reqs) ∧
  next_id (serve reqs startup).2 = 1 + creates_served reqs ∧
  omap created_record (serve reqs startup).1 `sublist_of` creations reqs startup ∧
  (∃ s', create_pokemon pokemon now (serve reqs startup).2
           = (Return (pokemon_record (1 + creates_served reqs) pokemon now), s') ∧
         app (POST_pokemon body now) (serve reqs startup).2
           = (if model_encodable pokemon
              then created (pokemon_record (1 + creates_served reqs) pokemon now)
              else server_error, s') ∧
         getitem (1 + creates_served reqs) (pokemon_db s')
           = Some (pokemon_record (1 + creates_served reqs) pokemon now) ∧
         next_id s' = 2 + creates_served reqs) ∧
  Forall (λ i, i < 1 + creates_served reqs) (assigned_ids reqs startup) ∧
  (∀ k reqs',
     (app (DELETE_pokemon_id k) (serve reqs startup).2).1 = no_content →
     k ∉ assigned_ids reqs' (app (DELETE_pokemon_id k) (serve reqs startup).2).2).
Proof.
  destruct (serve_startup_ids reqs) as [Hids Hnext].
  split_and!; try done.
  - apply created_records_sublist.
  - rewrite app_post, create_pokemon_eq, Hvalid, Hnext. eexists.
    split_and!; [done..| |simpl; lia]. simpl. apply getitem_setitem_eq.
  - rewrite Hids. apply Forall_forall. intros i Hi%elem_of_seqZ. lia.
  - intros k reqs'. set (s := (serve reqs startup).2) in *.
    assert (ids_below_counter s) as Hinv.
    { apply reachable_invariants, serve_reachable, reachable_startup. }
    rewrite app_delete. destruct (getitem k (pokemon_db s)) as [q|] eqn:E;
      [intros _ | by intros [=]].
    cbn [fst snd].
    destruct (serve_assigned_ids reqs'
                {| pokemon_db := erase k (pokemon_db s); next_id := next_id s |})
      as [-> _].
    cbn [next_id]. intros Hk%elem_of_seqZ.
    assert (k < next_id s); [|lia].
    apply Hinv, elem_of_keys. by rewrite E.
Qed.

Lemma create_assigns_next_id_witness :
  ∃ s', app (POST_pokemon (body_of (PokemonCreate.mk (lit "Onix") (lit "Rock") 40)) "t2")
          (serve [POST_pokemon
                    (body_of (PokemonCreate.mk (lit "Pikachu") (lit "Electric") 85))
                    "t0";
                  DELETE_pokemon_id 1] startup).2
        = (created (PokemonResponse.mk 2 (lit "Onix") (lit "Rock") 40 "t2"), s') ∧
        getitem 2 (pokemon_db s')
          = Some (PokemonResponse.mk 2 (lit "Onix") (lit "Rock") 40 "t2") ∧
        next_id s' = 3.
Proof.
  destruct (create_assigns_next_id
              [POST_pokemon
                 (body_of (PokemonCreate.mk (lit "Pikachu") (lit "Electric") 85)) "t0";
               DELETE_pokemon_id 1]
              (body_of (PokemonCreate.mk (lit "Onix") (lit "Rock") 40)) "t2"
              (PokemonCreate.mk (lit "Onix") (lit "Rock") 40))
    as (_ & _ & _ & (s' & _ & Hanswer & Hstored & Hnext) & _).
  - reflexivity.
  - exists s'. split_and!; [exact Hanswer | exact Hstored | exact Hnext].
Defined.

(** C9.  In every state that a process can reach, the counter is greater
    than every id in the dictionary.  Each of the four routes keeps it so,
    from any state where it is so.  Hence a successful create finds its id
    free: it overwrites nothing, every record stored before is still stored
    under its id, and the dictionary holds exactly one record more. *)
Theorem counter_above_stored_ids s (Hs : reachable s) :
  ids_below_counter s ∧
  (∀ s0 req, ids_below_counter s0 → ids_below_counter (app req s0).2) ∧
  (∀ body now p s',
     app (POST_pokemon body now) s = (created p, s') →
     getitem (PokemonResponse.id p) (pokemon_db s) = None ∧
     getitem (PokemonResponse.id p) (pokemon_db s') = Some p ∧
     (∀ j q, getitem j (pokemon_db s) = Some q → getitem j (pokemon_db s') = Some q) ∧
     len (pokemon_db s') = S (len (pokemon_db s))).
Proof.
  destruct (reachable_invariants s Hs) as (_ & Hinv & _).
  split; [done|]. split; [intros s0 req; apply app_preserves_ids_below_counter|].
  intros body now p s'. rewrite app_post.
  destruct (validate body) as [errors|pokemon].
  { by destruct (forallb (echo_encodable body) errors). }
  destruct (model_encodable pokemon); [|done].
  intros [= <- <-]. cbn [pokemon_db PokemonResponse.id pokemon_record].
  assert (getitem (next_id s) (pokemon_db s) = None) as Hfree.
  { apply getitem_None_keys. intros Hin%Hinv. lia. }
  split_and!.
  - done.
  - apply getitem_setitem_eq.
  - intros j q Hj. rewrite getitem_setitem_ne; [done|].
    intros <-. congruence.
  - rewrite setitem_fresh by done. unfold len. rewrite length_app. simpl. lia.
Qed.

Lemma counter_above_stored_ids_witness :
  ids_below_counter
    {| pokemon_db :=
         [(1, PokemonResponse.mk 1 (lit "Pikachu") (lit "Electric") 85 "t0")];
       next_id := 2 |}.
Proof.
  apply (counter_above_stored_ids
           (app (POST_pokemon
                   (body_of (PokemonCreate.mk (lit "Pikachu") (lit "Electric") 85))
                   "t0")
                startup).2).
  apply reachable_app, reachable_startup.
Defined.

Lemma ids_records_from n inputs :
  PokemonResponse.id <$> records_from n inputs = seqZ n (Z.of_nat (length inputs)).
Proof.
  revert n. induction inputs as [|i inputs IH]; intros n; [done|].
  cbn [records_from length]. rewrite Nat2Z.inj_succ, seqZ_cons by lia.
  rewrite fmap_cons, IH. simpl. do 2 f_equal. lia.
Qed.

Lemma length_records_from n inputs : length (records_from n inputs) = length inputs.
Proof.
  revert n. induction inputs as [|i inputs IH]; intros n; [done|].
  simpl. by rewrite IH.
Qed.

Lemma records_from_encodable n inputs :
  Forall (λ i, model_encodable i.1 = true) inputs →
  forallb record_encodable (records_from n inputs) = true.
Proof.
  intros Henc. revert n. induction Henc as [|i inputs Hi _ IH]; intros n; [done|].
  cbn [records_from forallb]. rewrite IH.
  change (record_encodable (pokemon_record n i.1 i.2)) with (model_encodable i.1).
  by rewrite Hi.
Qed.

(** Serving creates for valid inputs that can be encoded, from a state
    whose ids are below the counter, answers each with 201 and appends the
    records to the dictionary in the order served. *)
Lemma serve_create_requests inputs s :
  Forall (λ i, validate (body_of i.1) = inr i.1) inputs →
  Forall (λ i, model_encodable i.1 = true) inputs →
  ids_below_counter s →
  serve (create_requests inputs) s =
  (created <$> records_from (next_id s) inputs,
   {| pokemon_db := pokemon_db s ++
                    ((λ p, (PokemonResponse.id p, p)) <$> records_from (next_id s) inputs);
      next_id := next_id s + Z.of_nat (length inputs) |}).
Proof.
  intros Hvalid. revert s.
  induction Hvalid as [|i inputs Hi _ IH]; intros s Henc Hinv.
  - simpl. rewrite app_nil_r, Z.add_0_r. by destruct s.
  - apply Forall_cons in Henc as [Hci Henc].
    unfold create_requests. rewrite fmap_cons. fold (create_requests inputs).
    rewrite serve_app.
    pose proof (app_preserves_ids_below_counter (POST_pokemon (body_of i.1) i.2) s Hinv)
      as Hinv'.
    rewrite app_post, Hi, Hci in Hinv' |- *. cbn [fst snd] in *.
    rewrite IH by done. cbn [fst snd pokemon_db next_id records_from].
    rewrite setitem_fresh.
    + rewrite fmap_cons, <-app_assoc. simpl. do 2 f_equal. lia.
    + apply getitem_None_keys. intros Hin%Hinv. lia.
Qed.

(** C8.  Serving N creates from startup, with valid inputs whose names and
    types can be encoded, answers each with 201 and a record; the N records
    have the ids 1 to N, which are pairwise distinct; and a list served
    afterwards returns exactly those N records, in the order in which they
    were created. *)
Theorem creates_then_list inputs
    (Hvalid : Forall (λ i, validate (body_of i.1) = inr i.1) inputs)
    (Henc : Forall (λ i, model_encodable i.1 = true) inputs) :
  (serve (create_requests inputs) startup).1 = created <$> records_from 1 inputs ∧
  length (records_from 1 inputs) = length inputs ∧
  Forall2 (λ i p, ∃ n, p = pokemon_record n i.1 i.2) inputs (records_from 1 inputs) ∧
  PokemonResponse.id <$> records_from 1 inputs = seqZ 1 (Z.of_nat (length inputs)) ∧
  NoDup (PokemonResponse.id <$> records_from 1 inputs) ∧
  app GET_pokemon (serve (create_requests inputs) startup).2
    = (ok_list (records_from 1 inputs), (serve (create_requests inputs) startup).2).
Proof.
  rewrite serve_create_requests; [|done..|].
  2: { intros k Hk. by apply elem_of_nil in Hk. }
  change (next_id startup) with 1.
  assert (values
            ((λ p, (PokemonResponse.id p, p)) <$> records_from 1 inputs)
          = records_from 1 inputs) as Hvalues.
  { unfold values. rewrite <-list_fmap_compose. apply list_fmap_id. }
  split_and!.
  - done.
  - apply length_records_from.
  - clear Hvalid Henc Hvalues. generalize 1.
    induction inputs as [|i inputs IH]; intros n.
    + constructor.
    + constructor; [by exists n | apply IH].
  - apply ids_records_from.
  - rewrite ids_records_from. apply NoDup_seqZ.
  - rewrite app_get_list. unfold state_encodable.
    cbn [snd pokemon_db startup]. unfold empty. rewrite app_nil_l, Hvalues.
    by rewrite records_from_encodable.
Qed.

Lemma creates_then_list_witness :
  app GET_pokemon
    (serve (create_requests
              [(PokemonCreate.mk (lit "Pikachu") (lit "Electric") 85, "t0");
               (PokemonCreate.mk (lit "Onix") (lit "Rock") 40, "t1")]) startup).2
  = (ok_list [PokemonResponse.mk 1 (lit "Pikachu") (lit "Electric") 85 "t0";
              PokemonResponse.mk 2 (lit "Onix") (lit "Rock") 40 "t1"],
     {| pokemon_db :=
          [(1, PokemonResponse.mk 1 (lit "Pikachu") (lit "Electric") 85 "t0");
           (2, PokemonResponse.mk 2 (lit "Onix") (lit "Rock") 40 "t1")];
        next_id := 3 |}).
Proof.
  apply (creates_then_list
           [(PokemonCreate.mk (lit "Pikachu") (lit "Electric") 85, "t0");
            (PokemonCreate.mk (lit "Onix") (lit "Rock") 40, "t1")]).
  - repeat constructor.
  - repeat constructor.
Defined.

End identifiers.

(** * What the routes answer, and what they leave alone *)

Section answers.
Import PyDict PyDictFacts.
Implicit Types (body : Body) (pokemon : PokemonCreate.t) (s : Registry) (k : Z).
Implicit Types (req : Request) (reqs : list Request).

(** While the strings of the stored records and of the request can be
    encoded, a request is answered with one of the status codes of its
    route. *)
Lemma app_route_status req s :
  state_encodable s = true → request_encodable req = true →
  status (app req s).1 ∈ route_status req ∧
  content (app req s).1 ≠ InternalServerError.
Proof.
  intros Hs Hreq. destruct req as [|k|body now|k]; cbn [route_status].
  - rewrite app_get_list, Hs. split; [cbn [fst status]; repeat constructor | done].
  - rewrite app_get. destruct (getitem k (pokemon_db s)) as [p|] eqn:E.
    + assert (record_encodable p = true) as ->.
      { unfold state_encodable in Hs. apply Is_true_true in Hs.
        rewrite forallb_True, Forall_forall in Hs.
        by apply Is_true_true, Hs, (getitem_Some_values k). }
      split; [cbn [fst status]; repeat constructor | done].
    + split; [cbn [fst status]; repeat constructor | done].
  - rewrite app_post. cbn [request_encodable] in Hreq.
    destruct (validate body) as [errors|pokemon] eqn:E.
    + rewrite echo_encodable_body by done. split; [cbn [fst status]; repeat constructor | done].
    + apply validate_accepts in E as [-> _].
      assert (model_encodable pokemon = true) as -> by done.
      split; [cbn [fst status]; repeat constructor | done].
  - rewrite app_delete. destruct (getitem k (pokemon_db s));
      (split; [cbn [fst status]; repeat constructor | done]).
Qed.

(** X1.  No handler lets a [KeyError] escape: [get_pokemon] and
    [delete_pokemon] test for the key before they subscript or delete.  And
    while the strings of the stored records and of the requests can be
    encoded, no request is answered with a server error: the list answers
    200, a get 200 or 404, a create 201 or 422, a delete 204 or 404, and the
    strings stored afterwards can be encoded again. *)
Theorem status_codes reqs s
    (Hs : state_encodable s = true)
    (Hreqs : Forall (λ req, request_encodable req = true) reqs) :
  Forall2 (λ req resp, status resp ∈ route_status req ∧
                       content resp ≠ InternalServerError)
    reqs (serve reqs s).1 ∧
  state_encodable (serve reqs s).2 = true ∧
  (∀ k e s0 s', get_pokemon k s0 ≠ (Raise (KeyError e), s')) ∧
  (∀ k e s0 s', delete_pokemon k s0 ≠ (Raise (KeyError e), s')).
Proof.
  split_and!.
  - revert s Hs. induction Hreqs as [|req reqs Hreq _ IH]; intros s Hs.
    + constructor.
    + rewrite serve_app. cbn [fst]. constructor.
      * by apply app_route_status.
      * by apply IH, app_preserves_state_encodable.
  - revert s Hs. induction Hreqs as [|req reqs Hreq _ IH]; intros s Hs; [done|].
    rewrite serve_app. cbn [snd]. by apply IH, app_preserves_state_encodable.
  - intros k e s0 s'. rewrite get_pokemon_eq.
    by destruct (getitem k (pokemon_db s0)).
  - intros k e s0 s'. rewrite delete_pokemon_eq.
    by destruct (getitem k (pokemon_db s0)).
Qed.

Lemma status_codes_witness :
  Forall2 (λ req resp, status resp ∈ route_status req ∧
                       content resp ≠ InternalServerError)
    [POST_pokemon (body_of (PokemonCreate.mk (lit "Pikachu") (lit "Electric") 85)) "t0";
     GET_pokemon_id 1; DELETE_pokemon_id 7]
    [created (PokemonResponse.mk 1 (lit "Pikachu") (lit "Electric") 85 "t0");
     ok_pokemon (PokemonResponse.mk 1 (lit "Pikachu") (lit "Electric") 85 "t0");
     not_found_response 7].
Proof.
  apply (status_codes
           [POST_pokemon (body_of (PokemonCreate.mk (lit "Pikachu") (lit "Electric") 85))
              "t0";
            GET_pokemon_id 1; DELETE_pokemon_id 7] startup).
  - reflexivity.
  - repeat constructor.
Defined.

(** X2.  A request that is answered with 200, 404 or 422, that is with
    none of 201, 204 and 500, leaves both the dictionary and the counter
    exactly as they were; in particular every request that fails with 404
    or 422 does. *)
Theorem failure_changes_nothing req s
    (Hnot_created : status (app req s).1 ≠ 201)
    (Hnot_deleted : status (app req s).1 ≠ 204)
    (Hnot_error : status (app req s).1 ≠ 500) :
  (app req s).2 = s.
Proof.
  destruct (app_cases req s)
    as [(resp & -> & _)|[(? & ? & pokemon & _ & _ & Heq)|(? & ? & _ & _ & Heq)]];
    [done|..]; rewrite Heq in Hnot_created, Hnot_deleted, Hnot_error; [|done].
  by destruct (model_encodable pokemon).
Qed.

Lemma failure_changes_nothing_witness :
  (app (DELETE_pokemon_id 7)
     {| pokemon_db :=
          [(1, PokemonResponse.mk 1 (lit "Pikachu") (lit "Electric") 85 "t0")];
        next_id := 2 |}).2
  = {| pokemon_db :=
         [(1, PokemonResponse.mk 1 (lit "Pikachu") (lit "Electric") 85 "t0")];
       next_id := 2 |}.
Proof.
  apply (failure_changes_nothing (DELETE_pokemon_id 7)
           {| pokemon_db :=
                [(1, PokemonResponse.mk 1 (lit "Pikachu") (lit "Electric") 85 "t0")];
              next_id := 2 |}).
  - vm_compute. discriminate.
  - vm_compute. discriminate.
  - vm_compute. discriminate.
Defined.

(** Every record of a reachable state is stored under its own id, which
    the counter has passed, and meets the bounds of the model. *)
Lemma reachable_records_ok s :
  reachable s → ∀ k p, getitem k (pokemon_db s) = Some p → record_ok s k p.
Proof.
  induction 1 as [|req s Hs IH]; [done|].
  destruct (reachable_invariants s Hs) as (Hwf & Hlt & Hown & Hpos).
  destruct (app_cases req s)
    as [(resp & -> & _)|[(body & now & pokemon & _ & Hv & ->)|(k' & q & _ & _ & ->)]];
    [done|..]; intros k p; cbn [snd pokemon_db next_id].
  - destruct (decide (next_id s = k)) as [<-|Hne].
    + rewrite getitem_setitem_eq. intros [= <-].
      apply validate_accepts in Hv as [_ Hr]. unfold record_ok. simpl.
      split_and!; try done; lia.
    + rewrite getitem_setitem_ne by done. intros Hk.
      destruct (IH k p Hk) as (? & ? & ?). unfold record_ok. simpl.
      split_and!; try done; lia.
  - destruct (decide (k' = k)) as [<-|Hne].
    + by rewrite getitem_erase_eq.
    + rewrite getitem_erase_ne by done. apply IH.
Qed.

(** X3.  In every state a process can reach, each stored record carries
    the id it is stored under, that id is at least 1 and below the counter,
    and its power level lies between 1 and 100. *)
Theorem stored_records_meet_model s (Hs : reachable s) k p
    (Hstored : getitem k (pokemon_db s) = Some p) :
  PokemonResponse.id p = k ∧ 1 ≤ k < next_id s ∧
  1 ≤ PokemonResponse.power_level p ≤ 100.
Proof. exact (reachable_records_ok s Hs k p Hstored). Qed.

Lemma stored_records_meet_model_witness :
  PokemonResponse.id (PokemonResponse.mk 1 (lit "Pikachu") (lit "Electric") 85 "t0") = 1 ∧
  1 ≤ 1 < 2 ∧ 1 ≤ 85 ≤ 100.
Proof.
  apply (stored_records_meet_model
           (app (POST_pokemon (body_of (PokemonCreate.mk (lit "Pikachu") (lit "Electric") 85)) "t0")
                startup).2).
  - apply reachable_app, reachable_startup.
  - reflexivity.
Defined.

(** X4.  No request changes a stored record.  From a state whose ids are
    below the counter, after any request a record is still stored under its
    id, unchanged, unless the request was a delete of that very id, which
    answers 204. *)
Theorem stored_record_is_immutable req s k p
    (Hinv : ids_below_counter s)
    (Hstored : getitem k (pokemon_db s) = Some p) :
  getitem k (pokemon_db (app req s).2) = Some p ∨
  (req = DELETE_pokemon_id k ∧ (app req s).1 = no_content).
Proof.
  destruct (app_cases req s)
    as [(resp & -> & _)|[(body & now & pokemon & _ & _ & ->)|(k' & q & -> & _ & Heq)]].
  - by left.
  - left. cbn [snd pokemon_db]. rewrite getitem_setitem_ne; [done|].
    intros <-. assert (next_id s < next_id s); [|lia].
    apply Hinv, elem_of_keys. by rewrite Hstored.
  - destruct (decide (k' = k)) as [->|Hne].
    + right. by rewrite Heq.
    + left. rewrite Heq. cbn [snd pokemon_db]. by rewrite getitem_erase_ne.
Qed.

Lemma stored_record_is_immutable_witness :
  getitem 1
    (pokemon_db
       (app (POST_pokemon (body_of (PokemonCreate.mk (lit "Onix") (lit "Rock") 40)) "t1")
          {| pokemon_db := [(1, PokemonResponse.mk 1 (lit "Pikachu") (lit "Electric") 85 "t0")];
             next_id := 2 |}).2)
  = Some (PokemonResponse.mk 1 (lit "Pikachu") (lit "Electric") 85 "t0").
Proof.
  destruct (stored_record_is_immutable
              (POST_pokemon (body_of (PokemonCreate.mk (lit "Onix") (lit "Rock") 40)) "t1")
              {| pokemon_db := [(1, PokemonResponse.mk 1 (lit "Pikachu") (lit "Electric") 85 "t0")];
                 next_id := 2 |}
              1 (PokemonResponse.mk 1 (lit "Pikachu") (lit "Electric") 85 "t0"))
    as [Hkept|[Hreq _]].
  - intros k [->|Hk]%elem_of_cons; [simpl; lia | by apply elem_of_nil in Hk].
  - reflexivity.
  - exact Hkept.
  - discriminate Hreq.
Defined.

End answers.

(** * Order, absence and counting *)

Section order_and_counting.
Import PyDict PyDictFacts.
Implicit Types (body : Body) (pokemon : PokemonCreate.t) (s : Registry) (k : Z).
Implicit Types (req : Request) (reqs : list Request) (d : dict PokemonResponse.t).

Lemma sorted_keys_erase k d :
  StronglySorted Z.lt (keys d) → StronglySorted Z.lt (keys (erase k d)).
Proof.
  unfold keys. induction d as [|[k' v'] d IH]; simpl; [done|].
  rewrite StronglySorted_cons. intros [Hall Hd]. case_decide; simpl; [done|].
  apply StronglySorted_cons. split; [|auto].
  apply Forall_forall. intros j Hj. rewrite Forall_forall in Hall.
  by apply Hall, (keys_erase_subseteq k d).
Qed.

(** In a reachable state the keys stand in increasing order. *)
Lemma reachable_sorted_keys s :
  reachable s → StronglySorted Z.lt (keys (pokemon_db s)).
Proof.
  induction 1 as [|req s Hs IH]; [constructor|].
  destruct (reachable_invariants s Hs) as (_ & Hlt & _).
  destruct (app_cases req s)
    as [(resp & -> & _)|[(body & now & pokemon & _ & _ & ->)|(k' & q & _ & _ & ->)]];
    [done|..]; cbn [snd pokemon_db].
  - rewrite setitem_fresh.
    + unfold keys in *. rewrite fmap_app. apply StronglySorted_app. split_and!.
      * intros j1 j2 Hj1 ->%list_elem_of_singleton. by apply Hlt.
      * done.
      * repeat constructor.
    + apply getitem_None_keys. intros Hin%Hlt. lia.
  - by apply sorted_keys_erase.
Qed.

(** When every record sits under its own id, the ids of the values are the
    keys. *)
Lemma ids_of_values s :
  wf (pokemon_db s) → stored_under_own_id s →
  PokemonResponse.id <$> values (pokemon_db s) = keys (pokemon_db s).
Proof.
  intros Hwf Hown.
  assert (Forall (λ e, PokemonResponse.id e.2 = e.1) (pokemon_db s)) as Hall.
  { apply Forall_forall. intros [k p] Hin. by apply Hown, elem_of_getitem. }
  clear Hwf Hown. unfold values, keys.
  induction Hall as [|[k p] d Hkp _ IH]; [done|].
  rewrite !fmap_cons. cbn [fst snd] in *. by rewrite Hkp, IH.
Qed.

(** X5.  In every reachable state the list handler returns the records
    in strictly increasing order of their ids, so no two of them share an
    id; and whenever the route answers 200, it answers with that list. *)
Theorem list_is_sorted_by_id s (Hs : reachable s) :
  ∃ ps, list_pokemon s = (Return ps, s) ∧
        StronglySorted Z.lt (PokemonResponse.id <$> ps) ∧
        NoDup (PokemonResponse.id <$> ps) ∧
        ∀ ps', (app GET_pokemon s).1 = ok_list ps' → ps' = ps.
Proof.
  destruct (reachable_invariants s Hs) as (Hwf & _ & Hown & _).
  exists (values (pokemon_db s)). rewrite ids_of_values by done.
  split_and!; [done | by apply reachable_sorted_keys | done |].
  intros ps'. rewrite app_get_list. destruct (state_encodable s); [|done].
  by intros [= ->].
Qed.

Lemma list_is_sorted_by_id_witness :
  ∃ ps, list_pokemon
          (serve [POST_pokemon
                    (body_of (PokemonCreate.mk (lit "Pikachu") (lit "Electric") 85))
                    "t0";
                  POST_pokemon (body_of (PokemonCreate.mk (lit "Onix") (lit "Rock") 40))
                    "t1";
                  DELETE_pokemon_id 1;
                  POST_pokemon
                    (body_of (PokemonCreate.mk (lit "Eevee") (lit "Normal") 55)) "t2"]
                 startup).2
        = (Return ps,
           {| pokemon_db :=
                [(2, PokemonResponse.mk 2 (lit "Onix") (lit "Rock") 40 "t1");
                 (3, PokemonResponse.mk 3 (lit "Eevee") (lit "Normal") 55 "t2")];
              next_id := 4 |}) ∧
        StronglySorted Z.lt (PokemonResponse.id <$> ps).
Proof.
  destruct (list_is_sorted_by_id
              (serve [POST_pokemon
                        (body_of (PokemonCreate.mk (lit "Pikachu") (lit "Electric") 85))
                        "t0";
                      POST_pokemon
                        (body_of (PokemonCreate.mk (lit "Onix") (lit "Rock") 40)) "t1";
                      DELETE_pokemon_id 1;
                      POST_pokemon
                        (body_of (PokemonCreate.mk (lit "Eevee") (lit "Normal") 55))
                        "t2"]
                     startup).2) as (ps & Hlist & Hsorted & _).
  - apply serve_reachable, reachable_startup.
  - exists ps. split; [exact Hlist | exact Hsorted].
Defined.

(** An id that the counter has passed and that is not in the dictionary
    stays so. *)
Lemma app_preserves_retired req s k :
  k < next_id s → getitem k (pokemon_db s) = None →
  k < next_id (app req s).2 ∧ getitem k (pokemon_db (app req s).2) = None.
Proof.
  intros Hlt Hnone.
  destruct (app_cases req s)
    as [(resp & -> & _)|[(body & now & pokemon & _ & _ & ->)|(k' & q & _ & Hq & ->)]];
    [done|..]; cbn [snd pokemon_db next_id].
  - split; [lia|]. rewrite getitem_setitem_ne; [done | lia].
  - split; [done|]. rewrite getitem_erase_ne; [done | congruence].
Qed.

Lemma serve_preserves_retired reqs s k :
  k < next_id s → getitem k (pokemon_db s) = None →
  k < next_id (serve reqs s).2 ∧ getitem k (pokemon_db (serve reqs s).2) = None.
Proof.
  revert s. induction reqs as [|req reqs IH]; intros s Hlt Hnone; [done|].
  rewrite serve_app. cbn [snd].
  destruct (app_preserves_retired req s k Hlt Hnone). by apply IH.
Qed.

(** X6.  Once a delete of an id has answered 204 in a reachable state,
    that id is gone for good: whatever requests are served afterwards, a
    get and a further delete of the id answer 404 and change nothing, and no
    listed record carries the id. *)
Theorem deleted_id_stays_absent s k reqs
    (Hs : reachable s)
    (Hdel : (app (DELETE_pokemon_id k) s).1 = no_content) :
  app (GET_pokemon_id k) (serve reqs (app (DELETE_pokemon_id k) s).2).2
    = (not_found_response k, (serve reqs (app (DELETE_pokemon_id k) s).2).2) ∧
  app (DELETE_pokemon_id k) (serve reqs (app (DELETE_pokemon_id k) s).2).2
    = (not_found_response k, (serve reqs (app (DELETE_pokemon_id k) s).2).2) ∧
  Forall (λ p, PokemonResponse.id p ≠ k)
    (values (pokemon_db (serve reqs (app (DELETE_pokemon_id k) s).2).2)).
Proof.
  assert (reachable (serve reqs (app (DELETE_pokemon_id k) s).2).2) as Hs'.
  { by apply serve_reachable, reachable_app. }
  destruct (reachable_invariants s Hs) as (Hwf & Hlt & _).
  destruct (reachable_invariants _ Hs') as (Hwf' & _ & Hown' & _).
  assert (getitem k (pokemon_db (serve reqs (app (DELETE_pokemon_id k) s).2).2) = None)
    as Hnone.
  { apply serve_preserves_retired.
    - rewrite app_delete in Hdel |- *.
      destruct (getitem k (pokemon_db s)) as [q|] eqn:E; [|done].
      cbn [snd next_id]. apply Hlt, elem_of_keys. by rewrite E.
    - rewrite app_delete in Hdel |- *.
      destruct (getitem k (pokemon_db s)) as [q|] eqn:E; [|done].
      cbn [snd pokemon_db]. by apply getitem_erase_eq. }
  set (s' := (serve reqs (app (DELETE_pokemon_id k) s).2).2) in *.
  rewrite (app_get k s'), (app_delete k s'), Hnone. split_and!; [done..|].
  apply Forall_forall. intros p [j Hj]%elem_of_values; [|done].
  intros Hid. rewrite <-Hid, (Hown' _ _ Hj) in Hnone. congruence.
Qed.

Lemma deleted_id_stays_absent_witness :
  app (GET_pokemon_id 1)
    (serve [POST_pokemon (body_of (PokemonCreate.mk (lit "Onix") (lit "Rock") 40)) "t1"]
       (app (DELETE_pokemon_id 1)
          {| pokemon_db := [(1, PokemonResponse.mk 1 (lit "Pikachu") (lit "Electric") 85 "t0")];
             next_id := 2 |}).2).2
  = (not_found_response 1,
     {| pokemon_db := [(2, PokemonResponse.mk 2 (lit "Onix") (lit "Rock") 40 "t1")];
        next_id := 3 |}).
Proof.
  apply (deleted_id_stays_absent
           (app (POST_pokemon (body_of (PokemonCreate.mk (lit "Pikachu") (lit "Electric") 85)) "t0")
                startup).2
           1
           [POST_pokemon (body_of (PokemonCreate.mk (lit "Onix") (lit "Rock") 40)) "t1"]).
  - apply reachable_app, reachable_startup.
  - reflexivity.
Defined.

(** X8.  In a reachable state, an id below 1 or not below the counter is
    not stored: a get and a delete of it answer 404 and change nothing. *)
Theorem id_out_of_range_not_found s k
    (Hs : reachable s) (Hout : k < 1 ∨ next_id s ≤ k) :
  app (GET_pokemon_id k) s = (not_found_response k, s) ∧
  app (DELETE_pokemon_id k) s = (not_found_response k, s).
Proof.
  assert (getitem k (pokemon_db s) = None) as Hnone.
  { destruct (getitem k (pokemon_db s)) as [p|] eqn:E; [|done].
    destruct (reachable_records_ok s Hs k p E) as (_ & ? & _). lia. }
  by rewrite app_get, app_delete, Hnone.
Qed.

Lemma id_out_of_range_not_found_witness :
  app (GET_pokemon_id 0)
    {| pokemon_db := [(1, PokemonResponse.mk 1 (lit "Pikachu") (lit "Electric") 85 "t0")];
       next_id := 2 |}
  = (not_found_response 0,
     {| pokemon_db := [(1, PokemonResponse.mk 1 (lit "Pikachu") (lit "Electric") 85 "t0")];
        next_id := 2 |}).
Proof.
  apply (id_out_of_range_not_found
           (app (POST_pokemon (body_of (PokemonCreate.mk (lit "Pikachu") (lit "Electric") 85)) "t0")
                startup).2 0).
  - apply reachable_app, reachable_startup.
  - left. lia.
Defined.

(** X9.  In a reachable state the list and the get agree: the list
    handler returns a record exactly when the get handler returns it for
    the record's own id; and when the list route answers 200, a record is
    in its list exactly when the get route answers 200 with it for the
    record's own id. *)
Theorem list_and_get_agree s (Hs : reachable s) :
  ∃ ps, list_pokemon s = (Return ps, s) ∧
        (∀ p, p ∈ ps ↔ get_pokemon (PokemonResponse.id p) s = (Return p, s)) ∧
        (app GET_pokemon s = (ok_list ps, s) →
         ∀ p, p ∈ ps ↔
              app (GET_pokemon_id (PokemonResponse.id p)) s = (ok_pokemon p, s)).
Proof.
  destruct (reachable_invariants s Hs) as (Hwf & _ & Hown & _).
  exists (values (pokemon_db s)). split; [done|]. split.
  - intros p. rewrite elem_of_values by done. rewrite get_pokemon_eq. split.
    + intros [k Hk]. rewrite (Hown _ _ Hk), Hk. done.
    + destruct (getitem (PokemonResponse.id p) (pokemon_db s)) as [q|] eqn:E;
        [|done].
      intros [= ->]. by exists (PokemonResponse.id p).
  - rewrite app_get_list. destruct (state_encodable s) eqn:Henc; [|done].
    intros _ p. rewrite elem_of_values by done. rewrite app_get. split.
    + intros [k Hk]. rewrite (Hown _ _ Hk), Hk.
      assert (record_encodable p = true) as ->; [|done].
      unfold state_encodable in Henc. apply Is_true_true in Henc.
      rewrite forallb_True, Forall_forall in Henc.
      by apply Is_true_true, Henc, (getitem_Some_values k).
    + destruct (getitem (PokemonResponse.id p) (pokemon_db s)) as [q|] eqn:E;
        [|done].
      destruct (record_encodable q); [|done].
      intros [= ->]. by exists (PokemonResponse.id p).
Qed.

Lemma list_and_get_agree_witness :
  ∃ ps, list_pokemon
          {| pokemon_db :=
               [(1, PokemonResponse.mk 1 (lit "Pikachu") (lit "Electric") 85 "t0")];
             next_id := 2 |}
        = (Return ps,
           {| pokemon_db :=
                [(1, PokemonResponse.mk 1 (lit "Pikachu") (lit "Electric") 85 "t0")];
              next_id := 2 |}) ∧
        ∀ p, p ∈ ps ↔
             app (GET_pokemon_id (PokemonResponse.id p))
               {| pokemon_db :=
                    [(1, PokemonResponse.mk 1 (lit "Pikachu") (lit "Electric") 85 "t0")];
                  next_id := 2 |}
             = (ok_pokemon p,
                {| pokemon_db :=
                     [(1, PokemonResponse.mk 1 (lit "Pikachu") (lit "Electric") 85 "t0")];
                   next_id := 2 |}).
Proof.
  destruct (list_and_get_agree
              (app (POST_pokemon
                      (body_of (PokemonCreate.mk (lit "Pikachu") (lit "Electric") 85))
                      "t0")
                   startup).2) as (ps & Hlist & _ & Hroute).
  - apply reachable_app, reachable_startup.
  - exists ps. split; [exact Hlist|]. apply Hroute.
    injection Hlist as <-. reflexivity.
Defined.

End order_and_counting.

(** * How requests compose *)

Section composition.
Import PyDict PyDictFacts.
Implicit Types (body : Body) (pokemon : PokemonCreate.t) (s : Registry) (k : Z).
Implicit Types (req : Request) (reqs : list Request) (resps : list Response).

Lemma count_status_cons code resp resps :
  count_status code (resp :: resps) =
  if decide (status resp = code) then S (count_status code resps)
  else count_status code resps.
Proof. unfold count_status. rewrite filter_cons. by case_decide. Qed.

(** Deleting a key that was appended last gives the dictionary back. *)
Lemma erase_appended {V : Type} k (v : V) (d : dict V) :
  getitem k d = None → erase k (d ++ [(k, v)]) = d.
Proof.
  induction d as [|[k' v'] d IH]; simpl.
  - intros _. by rewrite decide_True.
  - case_decide; [done|]. intros Hnone. by rewrite IH.
Qed.

(** X7.  From a state whose ids are below the counter, after any sequence
    of requests none of which was answered with a server error, the number
    of stored records is the number before, plus the number of 201 answers,
    minus the number of 204 answers. *)
Theorem stored_count reqs s
    (Hinv : ids_below_counter s)
    (Hno_error : Forall (λ resp, status resp ≠ 500) (serve reqs s).1) :
  (len (pokemon_db (serve reqs s).2) + count_status 204 (serve reqs s).1
   = len (pokemon_db s) + count_status 201 (serve reqs s).1)%nat.
Proof.
  revert s Hinv Hno_error. induction reqs as [|req reqs IH]; intros s Hinv.
  - intros _. simpl. unfold count_status. simpl. lia.
  - rewrite serve_app. cbn [fst snd]. rewrite !count_status_cons.
    intros [Hresp Hrest]%Forall_cons.
    pose proof (IH _ (app_preserves_ids_below_counter req s Hinv) Hrest) as IH'.
    destruct (app_cases req s)
      as [(resp & Heq & Hst & _)|[(body & now & pokemon & _ & _ & Heq)|(k & q & _ & Hq & Heq)]];
      rewrite Heq in IH', Hresp |- *; cbn [fst snd pokemon_db] in *.
    + rewrite !decide_False by (destruct Hst as [-> | [-> | [-> | ->]]]; done).
      done.
    + destruct (model_encodable pokemon); [|done].
      rewrite decide_False, decide_True by done.
      assert (getitem (next_id s) (pokemon_db s) = None) as Hfresh.
      { apply getitem_None_keys. intros Hin%Hinv. lia. }
      rewrite (setitem_fresh _ _ _ Hfresh) in IH' |- *.
      unfold len in *. rewrite length_app in IH'. simpl in IH'. lia.
    + rewrite decide_True, decide_False by done.
      assert (S (len (erase k (pokemon_db s))) = len (pokemon_db s)) as Hlen.
      { apply len_erase. by rewrite Hq. }
      lia.
Qed.

Lemma stored_count_witness :
  Nat.add
    (len (pokemon_db
            (serve [POST_pokemon (body_of (PokemonCreate.mk (lit "Onix") (lit "Rock") 40))
                      "t1";
                    DELETE_pokemon_id 1; DELETE_pokemon_id 1; GET_pokemon]
               {| pokemon_db :=
                    [(1, PokemonResponse.mk 1 (lit "Pikachu") (lit "Electric") 85 "t0")];
                  next_id := 2 |}).2))
    1%nat
  = 2%nat.
Proof.
  apply (stored_count
           [POST_pokemon (body_of (PokemonCreate.mk (lit "Onix") (lit "Rock") 40)) "t1";
            DELETE_pokemon_id 1; DELETE_pokemon_id 1; GET_pokemon]
           {| pokemon_db :=
                [(1, PokemonResponse.mk 1 (lit "Pikachu") (lit "Electric") 85 "t0")];
              next_id := 2 |}).
  - intros k [->|Hk]%elem_of_cons; [simpl; lia | by apply elem_of_nil in Hk].
  - repeat constructor; discriminate.
Defined.

(** X10.  A valid create whose name and type can be encoded, followed at
    once by a delete of the id it was given, answers 201 and then 204, and
    leaves the dictionary exactly as it was before the create, order
    included; only the counter has moved on by one, so the id is spent. *)
Theorem create_then_delete body now pokemon s
    (Hinv : ids_below_counter s) (Hvalid : validate body = inr pokemon)
    (Henc : model_encodable pokemon = true) :
  serve [POST_pokemon body now; DELETE_pokemon_id (next_id s)] s
  = ([created (pokemon_record (next_id s) pokemon now); no_content],
     {| pokemon_db := pokemon_db s; next_id := next_id s + 1 |}).
Proof.
  rewrite !serve_app, app_post, Hvalid, Henc. cbn [fst snd].
  rewrite app_delete. cbn [pokemon_db next_id].
  rewrite getitem_setitem_eq. cbn [fst snd].
  rewrite setitem_fresh, erase_appended; [done|..];
    apply getitem_None_keys; intros Hin%Hinv; lia.
Qed.

Lemma create_then_delete_witness :
  serve [POST_pokemon (body_of (PokemonCreate.mk (lit "Onix") (lit "Rock") 40)) "t1";
         DELETE_pokemon_id 2]
    {| pokemon_db :=
         [(1, PokemonResponse.mk 1 (lit "Pikachu") (lit "Electric") 85 "t0")];
       next_id := 2 |}
  = ([created (PokemonResponse.mk 2 (lit "Onix") (lit "Rock") 40 "t1"); no_content],
     {| pokemon_db :=
          [(1, PokemonResponse.mk 1 (lit "Pikachu") (lit "Electric") 85 "t0")];
        next_id := 3 |}).
Proof.
  apply (create_then_delete
           (body_of (PokemonCreate.mk (lit "Onix") (lit "Rock") 40)) "t1"
           (PokemonCreate.mk (lit "Onix") (lit "Rock") 40)
           {| pokemon_db :=
                [(1, PokemonResponse.mk 1 (lit "Pikachu") (lit "Electric") 85 "t0")];
              next_id := 2 |}).
  - intros k [->|Hk]%elem_of_cons; [simpl; lia | by apply elem_of_nil in Hk].
  - reflexivity.
  - reflexivity.
Defined.

(** X11.  Reads do not interfere.  Dropping the list and get requests from
    a sequence changes neither the state it ends in nor the answers to the
    creates and deletes that remain. *)
Theorem reads_do_not_interfere reqs s :
  (serve (filter (λ req, is_read req = false) reqs) s).2 = (serve reqs s).2 ∧
  (serve (filter (λ req, is_read req = false) reqs) s).1
    = write_responses reqs (serve reqs s).1.
Proof.
  revert s. induction reqs as [|req reqs IH]; intros s; [done|].
  rewrite (serve_app req reqs s). cbn [fst snd]. unfold write_responses in *.
  cbn [zip zip_with]. destruct (is_read req) eqn:Hread.
  - rewrite !filter_cons_False by (cbn [fst]; congruence).
    assert ((app req s).2 = s) as ->.
    { destruct req as [|k| |]; try discriminate.
      - by rewrite app_get_list.
      - rewrite app_get. by destruct (getitem k (pokemon_db s)). }
    apply IH.
  - rewrite !filter_cons_True by done. rewrite serve_app. cbn [fst snd].
    destruct (IH (app req s).2) as [-> ->]. by rewrite fmap_cons.
Qed.

End composition.
